(** * Verification of [src/sequence.rs] (biocirc): biological sequences *)

From Stdlib Require Import List Arith NArith String Ascii Bool Lia.
Import ListNotations.

(** ** Characters and strings *)

(** A Rust [char] is a Unicode scalar value; we keep its code point. *)
Definition rchar := N.

(** A Rust [String] is the sequence of its chars (stored UTF-8 encoded). *)
Definition rstring := list rchar.

(** String literals of the source, written as ASCII text. *)
Definition str (s : string) : rstring := map N_of_ascii (list_ascii_of_string s).

(** [char::len_utf8]: number of bytes of the UTF-8 encoding. *)
Definition len_utf8 (c : rchar) : nat :=
  if (c <? 0x80)%N then 1
  else if (c <? 0x800)%N then 2
  else if (c <? 0x10000)%N then 3
  else 4.

(** [String::len]: the byte length. *)
Definition str_len (s : rstring) : nat := fold_right (fun c n => len_utf8 c + n) 0 s.

Fixpoint rstring_eqb (a b : rstring) : bool :=
  match a, b with
  | [], [] => true
  | x :: a', y :: b' => N.eqb x y && rstring_eqb a' b'
  | _, _ => false
  end.

(** [str::char_indices], from byte offset [i]. *)
Fixpoint char_indices_from (i : nat) (s : rstring) : list (nat * rchar) :=
  match s with
  | [] => []
  | c :: s' => (i, c) :: char_indices_from (i + len_utf8 c) s'
  end.

Definition char_indices (s : rstring) : list (nat * rchar) := char_indices_from 0 s.

(** [str::replace(from, to)] with a one-character pattern [from]: every
    occurrence of [from] is replaced by [to]. *)
Definition replace (from : rchar) (to : rstring) (s : rstring) : rstring :=
  flat_map (fun c => if N.eqb c from then to else [c]) s.

(** [slice::chunks(3)] on a [Vec<char>]: consecutive chunks of three, the
    last one possibly shorter. *)
Fixpoint chunks3 (l : rstring) : list rstring :=
  match l with
  | a :: b :: c :: r => [a; b; c] :: chunks3 r
  | [] => []
  | r => [r]
  end.

(** [HashMap] built by [iter().cloned().collect()] from a table of pairs:
    a later pair overwrites an earlier one with the same key. *)
Fixpoint hashmap_get {K V : Type} (eqb : K -> K -> bool) (tbl : list (K * V)) (k : K)
  : option V :=
  match tbl with
  | [] => None
  | (k', v) :: t =>
      match hashmap_get eqb t k with
      | Some v' => Some v'
      | None => if eqb k' k then Some v else None
      end
  end.

(** ** Results and panics *)

(** [Result<T, E>]. *)
Inductive result (T E : Type) : Type :=
| Ok (t : T)
| Err (e : E).
Arguments Ok {T E} t.
Arguments Err {T E} e.

(** A computation that either returns or panics with a message. *)
Inductive outcome (A : Type) : Type :=
| Done (a : A)
| Panic (msg : rstring).
Arguments Done {A} a.
Arguments Panic {A} msg.

(** ** Data model *)

Inductive BioType : Type := Dna | Rna | Protein.

(** [#[derive(PartialEq)]] on [BioType]. *)
Definition BioType_eqb (a b : BioType) : bool :=
  match a, b with
  | Dna, Dna | Rna, Rna | Protein, Protein => true
  | _, _ => false
  end.

(** [impl fmt::Display for BioType]. *)
Definition display (b : BioType) : rstring :=
  match b with
  | Dna => str "DNA"
  | Protein => str "PROTEIN"
  | Rna => str "RNA"
  end.

Record Sequence : Type := mkSequence { biotype : BioType; seq : rstring }.

(** [Sequence::new]. *)
Definition new (biotype : BioType) (seq : rstring) : Sequence := mkSequence biotype seq.

(** Message pieces of the source that are not ASCII, as code points. *)
Definition msg_type_err : rstring := [0x7c7b; 0x578b; 0x9519; 0x8bef]%N.          (* 类型错误 *)
Definition msg_add_to : rstring := [0x52a0; 0x5230]%N.                          (* 加到 *)
Definition msg_cannot : rstring := [0x4f60; 0x4e0d; 0x80fd]%N.                  (* 你不能 *)
Definition msg_one_piece : rstring := [0x4e00; 0x6bb5]%N.                       (* 一段 *)
Definition msg_sequence : rstring := [0x5e8f; 0x5217]%N.                        (* 序列 *)
Definition msg_translate : rstring := [0x7ffb; 0x8bd1]%N.                       (* 翻译 *)
Definition msg_transcribe : rstring := [0x8f6c; 0x5f55]%N.                      (* 转录 *)
Definition msg_back : rstring := [0x9006]%N.                                    (* 逆 *)
Definition msg_revcomp : rstring := [0x53cd; 0x5411; 0x4e92; 0x8865]%N.         (* 反向互补 *)

(** [impl Add for Sequence]: panics on a biotype mismatch. *)
Definition add (self rhs : Sequence) : outcome Sequence :=
  if BioType_eqb self.(biotype) rhs.(biotype) then
    Done {| biotype := self.(biotype); seq := self.(seq) ++ rhs.(seq) |}
  else
    Panic (msg_type_err ++ display self.(biotype) ++ msg_add_to ++ display rhs.(biotype)).

(** [impl<T: Into<String>> Add<T> for Sequence]; [rhs] is [rhs.into()]. *)
Definition add_text (self : Sequence) (rhs : rstring) : Sequence :=
  {| biotype := self.(biotype); seq := self.(seq) ++ rhs |}.

(** [impl PartialEq for Sequence]. *)
Definition eq (self other : Sequence) : bool := rstring_eqb self.(seq) other.(seq).

(** [Sequence::len]. *)
Definition len (self : Sequence) : nat := str_len self.(seq).

(** [Sequence::change] (on [&mut self]: the updated receiver is returned). *)
Definition change (self : Sequence) (index : nat) (ch : rchar) : Sequence :=
  let replaced :=
    fold_left (fun replaced (ic : nat * rchar) =>
                 let (i, c) := ic in
                 if Nat.eqb i index then replaced ++ [ch] else replaced ++ [c])
              (char_indices self.(seq)) [] in
  {| biotype := self.(biotype); seq := replaced |}.

Definition DNA_BASE_PAIRING : list (rchar * rchar) :=
  map (fun '(a, b) => (N_of_ascii a, N_of_ascii b))
      [("A", "T"); ("G", "C"); ("T", "A"); ("C", "G")]%char.

Definition RNA_BASE_PAIRING : list (rchar * rchar) :=
  map (fun '(a, b) => (N_of_ascii a, N_of_ascii b))
      [("A", "U"); ("G", "C"); ("U", "A"); ("C", "G")]%char.

(** The [for base in seq.chars()] loop of [complementary]: [complement] is
    the accumulated string, [invalid] the message prefix of the branch. *)
Fixpoint complement_loop (pairing_table : list (rchar * rchar)) (invalid : rstring)
         (complement : rstring) (s : rstring) : result rstring rstring :=
  match s with
  | [] => Ok complement
  | base :: s' =>
      match hashmap_get N.eqb pairing_table base with
      | Some complement_base =>
          complement_loop pairing_table invalid (complement ++ [complement_base]) s'
      | None => Err (invalid ++ [base])
      end
  end.

Section Operations.

(** [char::to_uppercase]: Unicode's full upper-case mapping of one char. *)
Variable char_to_uppercase : rchar -> rstring.

(** [codon::CODON_TABLE], a table of (codon, amino acid) string pairs. *)
Variable CODON_TABLE : list (rstring * rstring).

(** [str::to_uppercase]. *)
Definition to_uppercase (s : rstring) : rstring := flat_map char_to_uppercase s.

(** [Sequence::transcribe]. *)
Definition transcribe (self : Sequence) : result Sequence rstring :=
  match self.(biotype) with
  | Dna =>
      let seq := replace (N_of_ascii "T") (str "U") (to_uppercase self.(seq)) in
      Ok {| biotype := Rna; seq := seq |}
  | Protein | Rna =>
      Err (msg_cannot ++ msg_transcribe ++ msg_one_piece ++ display self.(biotype) ++ msg_sequence)
  end.

(** [Sequence::back_transcription]. *)
Definition back_transcription (self : Sequence) : result Sequence rstring :=
  match self.(biotype) with
  | Rna =>
      let seq := replace (N_of_ascii "U") (str "T") (to_uppercase self.(seq)) in
      Ok {| biotype := Rna; seq := seq |}
  | Protein | Dna =>
      Err (msg_cannot ++ msg_back ++ msg_transcribe ++ msg_one_piece
             ++ display self.(biotype) ++ msg_sequence)
  end.

(** [Sequence::complementary]. *)
Definition complementary (self : Sequence) : result Sequence rstring :=
  match self.(biotype) with
  | Dna =>
      let seq := to_uppercase self.(seq) in
      match complement_loop DNA_BASE_PAIRING (str "Invalid DNA base: ") [] seq with
      | Ok complement => Ok (new self.(biotype) complement)
      | Err e => Err e
      end
  | Rna =>
      let seq := to_uppercase self.(seq) in
      match complement_loop RNA_BASE_PAIRING (str "Invalid RNA base: ") [] seq with
      | Ok complement => Ok (new self.(biotype) complement)
      | Err e => Err e
      end
  | Protein =>
      Err (msg_cannot ++ msg_revcomp ++ msg_one_piece ++ str " " ++ display self.(biotype)
             ++ str " " ++ msg_sequence)
  end.

(** [Sequence::reverse_complementary]. *)
Definition reverse_complementary (self : Sequence) : result Sequence rstring :=
  match complementary self with
  | Ok sequence => Ok {| biotype := sequence.(biotype); seq := rev sequence.(seq) |}
  | Err e => Err e
  end.

(** Panic message of [HashMap]'s [Index] on a missing key. *)
Definition msg_no_entry : rstring := str "no entry found for key".

(** The [while let Some(chunk) = chunks.next()] loop of [translate]. *)
Fixpoint translate_loop (chunks : list rstring) (protein_seq : rstring) : outcome rstring :=
  match chunks with
  | [] => Done protein_seq
  | chunk :: chunks' =>
      if Nat.ltb (List.length chunk) 3 then Done protein_seq
      else
        match hashmap_get rstring_eqb CODON_TABLE chunk with
        | None => Panic msg_no_entry
        | Some coden =>
            let protein_seq := protein_seq ++ coden in
            if rstring_eqb coden (str "*") then Done protein_seq
            else translate_loop chunks' protein_seq
        end
  end.

(** [Result::unwrap]. *)
Definition unwrap {T : Type} (r : result T rstring) : outcome T :=
  match r with
  | Ok t => Done t
  | Err e => Panic (str "called `Result::unwrap()` on an `Err` value: " ++ e)
  end.

(** [Sequence::translate]. *)
Definition translate (self : Sequence) : outcome (result Sequence rstring) :=
  let seq :=
    if BioType_eqb self.(biotype) Dna then
      match unwrap (transcribe self) with
      | Done r => Done r.(seq)
      | Panic m => Panic m
      end
    else Done (to_uppercase self.(seq)) in
  match seq with
  | Panic m => Panic m
  | Done seq =>
      match self.(biotype) with
      | Dna | Rna =>
          match translate_loop (chunks3 seq) [] with
          | Panic m => Panic m
          | Done _protein_seq => Done (Ok (new Protein seq))
          end
      | Protein =>
          Done (Err (msg_cannot ++ msg_translate ++ msg_one_piece ++ display Protein ++ msg_sequence))
      end
  end.

End Operations.

(** ** Concrete instances *)

(** Unicode's upper-case mapping on the ASCII range ([a]-[z] to [A]-[Z],
    every other ASCII char unchanged); used on ASCII inputs only. *)
Definition ascii_char_to_uppercase (c : rchar) : rstring :=
  if (97 <=? c)%N && (c <=? 122)%N then [(c - 32)%N] else [c].

(** Modelled from the spec: [codon::CODON_TABLE] (module [codon], not in the
    sources), the fixed mapping of the 64 RNA codons to one amino-acid letter
    or the stop marker ['*'] (standard genetic code). *)
Definition standard_codon_table : list (rstring * rstring) :=
  [(str "UUU", str "F"); (str "UUC", str "F"); (str "UUA", str "L"); (str "UUG", str "L");
   (str "UCU", str "S"); (str "UCC", str "S"); (str "UCA", str "S"); (str "UCG", str "S");
   (str "UAU", str "Y"); (str "UAC", str "Y"); (str "UAA", str "*"); (str "UAG", str "*");
   (str "UGU", str "C"); (str "UGC", str "C"); (str "UGA", str "*"); (str "UGG", str "W");
   (str "CUU", str "L"); (str "CUC", str "L"); (str "CUA", str "L"); (str "CUG", str "L");
   (str "CCU", str "P"); (str "CCC", str "P"); (str "CCA", str "P"); (str "CCG", str "P");
   (str "CAU", str "H"); (str "CAC", str "H"); (str "CAA", str "Q"); (str "CAG", str "Q");
   (str "CGU", str "R"); (str "CGC", str "R"); (str "CGA", str "R"); (str "CGG", str "R");
   (str "AUU", str "I"); (str "AUC", str "I"); (str "AUA", str "I"); (str "AUG", str "M");
   (str "ACU", str "T"); (str "ACC", str "T"); (str "ACA", str "T"); (str "ACG", str "T");
   (str "AAU", str "N"); (str "AAC", str "N"); (str "AAA", str "K"); (str "AAG", str "K");
   (str "AGU", str "S"); (str "AGC", str "S"); (str "AGA", str "R"); (str "AGG", str "R");
   (str "GUU", str "V"); (str "GUC", str "V"); (str "GUA", str "V"); (str "GUG", str "V");
   (str "GCU", str "A"); (str "GCC", str "A"); (str "GCA", str "A"); (str "GCG", str "A");
   (str "GAU", str "D"); (str "GAC", str "D"); (str "GAA", str "E"); (str "GAG", str "E");
   (str "GGU", str "G"); (str "GGC", str "G"); (str "GGA", str "G"); (str "GGG", str "G")].

(** ** The remaining methods of [Sequence] *)

(** [str::is_char_boundary]: [i] is where a char starts, or the byte length. *)
Definition is_char_boundary (s : rstring) (i : nat) : bool :=
  existsb (Nat.eqb i) (map fst (char_indices s) ++ [str_len s]).

(** The chars of the byte slice [s[a..b]], for char boundaries [a] and [b]. *)
Definition slice_chars (s : rstring) (a b : nat) : rstring :=
  map snd (filter (fun ic => Nat.leb a (fst ic) && Nat.ltb (fst ic) b) (char_indices s)).

(** [Sequence::index]: [self.seq[index..=index].chars().next().unwrap()];
    slicing a [str] panics unless both ends are char boundaries. *)
Definition index (self : Sequence) (index : nat) : outcome rchar :=
  let s := self.(seq) in
  if is_char_boundary s index && is_char_boundary s (index + 1) then
    match slice_chars s index (index + 1) with
    | c :: _ => Done c
    | [] => Panic (str "called `Option::unwrap()` on a `None` value")
    end
  else Panic (str "byte index is not a char boundary or is out of bounds").

(** [Sequence::push] (on [&mut self]: the updated receiver is returned). *)
Definition push (self : Sequence) (ch : rchar) : Sequence :=
  {| biotype := self.(biotype); seq := self.(seq) ++ [ch] |}.

Fixpoint is_prefix (p s : rstring) : bool :=
  match p, s with
  | [], _ => true
  | x :: p', y :: s' => N.eqb x y && is_prefix p' s'
  | _ :: _, [] => false
  end.

(** Number of the non-overlapping, leftmost-first matches of a non-empty
    pattern [pat] in [s], as [str::matches] finds them; [fuel] bounds the
    number of steps (each step consumes at least one char). *)
Fixpoint count_matches (fuel : nat) (pat s : rstring) : nat :=
  match fuel with
  | 0 => 0
  | S fuel' =>
      match s with
      | [] => 0
      | _ :: s' =>
          if is_prefix pat s then S (count_matches fuel' pat (skipn (List.length pat) s))
          else count_matches fuel' pat s'
      end
  end.

(** [Sequence::count]: [self.seq.matches(string).count()]; the empty
    pattern matches at every char boundary. *)
Definition count (self : Sequence) (string : rstring) : nat :=
  match string with
  | [] => S (List.length self.(seq))
  | _ :: _ => count_matches (List.length self.(seq)) string self.(seq)
  end.

(** [char::encode_utf8]: the UTF-8 bytes of a char. *)
Definition encode_utf8 (code : rchar) : list N :=
  match len_utf8 code with
  | 1 => [code]
  | 2 => [N.lor (N.land (N.shiftr code 6) 0x1F) 0xC0; N.lor (N.land code 0x3F) 0x80]
  | 3 => [N.lor (N.land (N.shiftr code 12) 0x0F) 0xE0;
          N.lor (N.land (N.shiftr code 6) 0x3F) 0x80; N.lor (N.land code 0x3F) 0x80]
  | _ => [N.lor (N.land (N.shiftr code 18) 0x07) 0xF0;
          N.lor (N.land (N.shiftr code 12) 0x3F) 0x80;
          N.lor (N.land (N.shiftr code 6) 0x3F) 0x80; N.lor (N.land code 0x3F) 0x80]
  end.

(** [str::as_bytes]. *)
Definition as_bytes (s : rstring) : list N := flat_map encode_utf8 s.

(** [core::str::utf8_char_width]: the width announced by a leading byte. *)
Definition utf8_char_width (b : N) : nat :=
  if (b <? 0x80)%N then 1
  else if (0xC2 <=? b)%N && (b <=? 0xDF)%N then 2
  else if (0xE0 <=? b)%N && (b <=? 0xEF)%N then 3
  else if (0xF0 <=? b)%N && (b <=? 0xF4)%N then 4
  else 0.

Definition in_range (lo hi b : N) : bool := (lo <=? b)%N && (b <=? hi)%N.

Definition is_cont (b : N) : bool := in_range 0x80 0xBF b.

(** The second byte allowed after a three-byte leading byte. *)
Definition second_ok3 (b0 b1 : N) : bool :=
  (N.eqb b0 0xE0 && in_range 0xA0 0xBF b1)
  || (in_range 0xE1 0xEC b0 && in_range 0x80 0xBF b1)
  || (N.eqb b0 0xED && in_range 0x80 0x9F b1)
  || (in_range 0xEE 0xEF b0 && in_range 0x80 0xBF b1).

(** The second byte allowed after a four-byte leading byte. *)
Definition second_ok4 (b0 b1 : N) : bool :=
  (N.eqb b0 0xF0 && in_range 0x90 0xBF b1)
  || (in_range 0xF1 0xF3 b0 && in_range 0x80 0xBF b1)
  || (N.eqb b0 0xF4 && in_range 0x80 0x8F b1).

(** [str::from_utf8]: validation as [run_utf8_validation], decoding as
    [next_code_point]; [None] is the [Utf8Error]. *)
Fixpoint from_utf8 (v : list N) : option rstring :=
  match v with
  | [] => Some []
  | b0 :: r =>
      match utf8_char_width b0, r with
      | 1, _ => option_map (cons b0) (from_utf8 r)
      | 2, b1 :: r' =>
          if is_cont b1 then
            option_map (cons (N.lor (N.shiftl (N.land b0 0x1F) 6) (N.land b1 0x3F)))
                       (from_utf8 r')
          else None
      | 3, b1 :: b2 :: r' =>
          if second_ok3 b0 b1 && is_cont b2 then
            option_map (cons (N.lor (N.shiftl (N.land b0 0x0F) 12)
                                    (N.lor (N.shiftl (N.land b1 0x3F) 6) (N.land b2 0x3F))))
                       (from_utf8 r')
          else None
      | 4, b1 :: b2 :: b3 :: r' =>
          if second_ok4 b0 b1 && is_cont b2 && is_cont b3 then
            option_map (cons (N.lor (N.shiftl (N.land b0 0x07) 18)
                                    (N.lor (N.shiftl (N.land b1 0x3F) 12)
                                           (N.lor (N.shiftl (N.land b2 0x3F) 6)
                                                  (N.land b3 0x3F)))))
                       (from_utf8 r')
          else None
      | _, _ => None
      end
  end.

(** [slice::chunks(n)]: chunks of [n] elements, the last possibly shorter;
    [fuel] bounds the number of chunks. *)
Fixpoint chunks_fuel {A : Type} (fuel n : nat) (l : list A) : list (list A) :=
  match fuel with
  | 0 => []
  | S fuel' =>
      match l with
      | [] => []
      | _ :: _ => firstn n l :: chunks_fuel fuel' n (skipn n l)
      end
  end.

Definition chunks {A : Type} (n : nat) (l : list A) : list (list A) :=
  chunks_fuel (List.length l) n l.

(** [.map(|chunk| std::str::from_utf8(chunk).unwrap()).collect::<Vec<&str>>()]. *)
Fixpoint decode_chunks (cs : list (list N)) : outcome (list rstring) :=
  match cs with
  | [] => Done []
  | c :: cs' =>
      match from_utf8 c with
      | None => Panic (str "called `Result::unwrap()` on an `Err` value: Utf8Error")
      | Some s =>
          match decode_chunks cs' with
          | Done l => Done (s :: l)
          | Panic m => Panic m
          end
      end
  end.

Definition newline : rchar := 10%N.

(** [.join("\n")]. *)
Definition join_nl (lines : list rstring) : rstring :=
  match lines with
  | [] => []
  | l :: ls => l ++ flat_map (fun x => newline :: x) ls
  end.

(** The header written before the text: ["Bio Sequence Type is :{}\nSequence:\n"]. *)
Definition fmt_header (bt : BioType) : rstring :=
  str "Bio Sequence Type is :" ++ display bt ++ [newline] ++ str "Sequence:" ++ [newline].

(** [impl fmt::Display for Sequence]: the text cut into chunks of 80 bytes,
    one line each. *)
Definition fmt (self : Sequence) : outcome rstring :=
  match decode_chunks (chunks 80 (as_bytes self.(seq))) with
  | Done lines => Done (fmt_header self.(biotype) ++ join_nl lines)
  | Panic m => Panic m
  end.

(** ** Specification vocabulary *)

(** [x] occurs as a contiguous piece of the message [m]. *)
Definition contains (m x : rstring) : Prop := exists pre post, m = pre ++ x ++ post.

(** The four bases of a nucleic-acid biotype (none for proteins). *)
Definition alphabet (bt : BioType) : rstring :=
  match bt with
  | Dna => str "ATGC"
  | Rna => str "AUGC"
  | Protein => []
  end.

(** Every complete triplet of [s] (a chunk of three) is a key of [tbl]. *)
Definition codons_presentb (tbl : list (rstring * rstring)) (s : rstring) : bool :=
  forallb (fun chunk => Nat.ltb (List.length chunk) 3
                        || match hashmap_get rstring_eqb tbl chunk with
                           | Some _ => true
                           | None => false
                           end) (chunks3 s).

(** Pairing table of each nucleic biotype, and the base it pairs a char with. *)
Definition pairing (bt : BioType) : list (rchar * rchar) :=
  match bt with
  | Dna => DNA_BASE_PAIRING
  | Rna => RNA_BASE_PAIRING
  | Protein => []
  end.

Definition pair_base (bt : BioType) (x : rchar) : rchar :=
  match hashmap_get N.eqb (pairing bt) x with Some y => y | None => x end.

(** Reading [chunks] in order, a complete triplet missing from [tbl] is met
    before any stop codon ["*"]. *)
Definition missing_codon_reached (tbl : list (rstring * rstring)) (chunks : list rstring) : Prop :=
  exists pre codon post, chunks = pre ++ codon :: post
    /\ List.length codon = 3 /\ hashmap_get rstring_eqb tbl codon = None
    /\ forall x, In x pre ->
         List.length x = 3 /\ exists a, hashmap_get rstring_eqb tbl x = Some a /\ a <> str "*".

(** "A", U+4E00 (three bytes), "C": the chars start at bytes 0, 1 and 4. *)
Definition multibyte_text : rstring := [65; 0x4e00; 67]%N.

(** ** Concrete runs *)

(** [translate] on Dna "ATGTTTTAA" returns its transcription labelled Protein. *)
Example translate_ATGTTTTAA :
  translate ascii_char_to_uppercase standard_codon_table (new Dna (str "ATGTTTTAA"))
  = Done (Ok (new Protein (str "AUGUUUUAA"))).
Proof. vm_compute. reflexivity. Qed.

(** The loop does compute the protein "MF*", stopping at the stop codon. *)
Example translate_loop_ATGTTTTAA :
  translate_loop standard_codon_table (chunks3 (str "AUGUUUUAAGGG")) [] = Done (str "MF*").
Proof. vm_compute. reflexivity. Qed.

(** ** Lemmas about the string helpers *)

Lemma rstring_eqb_eq : forall a b, rstring_eqb a b = true <-> a = b.
Proof.
  induction a as [|x a IH]; destruct b as [|y b]; simpl; try (split; congruence).
  rewrite andb_true_iff, IH, N.eqb_eq. split.
  - intros [-> ->]. reflexivity.
  - intros H. injection H. auto.
Qed.

Lemma to_uppercase_fixed : forall up s,
  (forall c, In c s -> up c = [c]) -> to_uppercase up s = s.
Proof.
  intros up s. unfold to_uppercase. induction s as [|c s IH]; intros H; simpl.
  - reflexivity.
  - rewrite H by (left; reflexivity). rewrite IH by (intros; apply H; right; assumption).
    reflexivity.
Qed.

Lemma replace_single : forall from to s,
  replace from [to] s = map (fun c => if N.eqb c from then to else c) s.
Proof.
  intros from to s. unfold replace. induction s as [|c s IH]; simpl.
  - reflexivity.
  - rewrite IH. destruct (N.eqb c from); reflexivity.
Qed.

Lemma translate_loop_present : forall tbl chunks acc,
  forallb (fun chunk => Nat.ltb (List.length chunk) 3
                        || match hashmap_get rstring_eqb tbl chunk with
                           | Some _ => true
                           | None => false
                           end) chunks = true ->
  exists p, translate_loop tbl chunks acc = Done p.
Proof.
  intros tbl chunks. induction chunks as [|chunk chunks IH]; intros acc H; simpl.
  - eauto.
  - simpl in H. apply andb_true_iff in H as [H1 H2].
    destruct (Nat.ltb (List.length chunk) 3) eqn:Hlt; [eauto|].
    simpl in H1. destruct (hashmap_get rstring_eqb tbl chunk) as [coden|]; [|discriminate].
    destruct (rstring_eqb coden (str "*")); eauto.
Qed.

(** Result of [translate] on a nucleic-acid receiver, in terms of the text it
    reads codons from. *)
Lemma translate_nucleic : forall up tbl s,
  biotype s <> Protein ->
  let text := match biotype s with
              | Dna => replace (N_of_ascii "T") (str "U") (to_uppercase up (seq s))
              | _ => to_uppercase up (seq s)
              end in
  codons_presentb tbl text = true ->
  translate up tbl s = Done (Ok (new Protein text)).
Proof.
  intros up tbl [bt text] Hbt; simpl in *.
  destruct bt; [| |congruence]; intros Hc;
    unfold translate, unwrap, transcribe; simpl;
    destruct (translate_loop_present tbl _ [] Hc) as [p ->]; reflexivity.
Qed.

Lemma complementary_biotype : forall up s c,
  complementary up s = Ok c -> biotype c = biotype s.
Proof.
  intros up [bt text] c. unfold complementary; simpl.
  destruct bt; try discriminate;
    match goal with |- context [complement_loop ?t ?i ?a ?x] =>
      destruct (complement_loop t i a x) end;
    intros H; try discriminate; injection H as <-; reflexivity.
Qed.

Lemma in_AGCT_cases : forall c, In c (str "AGCT") ->
  c = 65%N \/ c = 71%N \/ c = 67%N \/ c = 84%N.
Proof. intros c H. simpl in H. intuition. Qed.

(** ** Claims *)

(** C1 (amended): on a Dna or Rna receiver whose complete codons are all in
    the codon table, [translate] returns [Ok] of a Protein-labelled sequence
    whose text is the nucleotide text it reads codons from (the receiver's text
    upper-cased, and for Dna with every T replaced by U), not the protein
    letters. *)
Theorem translate_returns_nucleotide_text : forall up tbl bt text,
  bt <> Protein ->
  let nucleotides := match bt with
                     | Dna => replace (N_of_ascii "T") (str "U") (to_uppercase up text)
                     | _ => to_uppercase up text
                     end in
  codons_presentb tbl nucleotides = true ->
  translate up tbl (new bt text) = Done (Ok (new Protein nucleotides)).
Proof.
  intros up tbl bt text Hbt nucleotides Hc.
  exact (translate_nucleic up tbl (new bt text) Hbt Hc).
Qed.

(** C1 fails as stated: on Dna "ATGTTTTAA", whose codons AUG, UUU, UAA are in
    the codon table, the returned text is "AUGUUUUAA", not the original text. *)
Lemma translate_original_text_counterexample :
  codons_presentb standard_codon_table (str "AUGUUUUAA") = true /\
  translate ascii_char_to_uppercase standard_codon_table (new Dna (str "ATGTTTTAA"))
  <> Done (Ok (new Protein (str "ATGTTTTAA"))).
Proof.
  split.
  - vm_compute. reflexivity.
  - intros H. vm_compute in H. discriminate H.
Qed.

(** C2: [translate] returns a Protein-labelled sequence whose text is, for a
    Dna receiver, its transcription (upper-cased, T replaced by U) and, for an
    Rna receiver, its upper-cased text; the amino-acid string is dropped. *)
Theorem translate_text_is_transcription : forall up tbl text,
  (codons_presentb tbl (replace (N_of_ascii "T") (str "U") (to_uppercase up text)) = true ->
   translate up tbl (new Dna text)
   = Done (Ok (new Protein (replace (N_of_ascii "T") (str "U") (to_uppercase up text))))) /\
  (codons_presentb tbl (to_uppercase up text) = true ->
   translate up tbl (new Rna text) = Done (Ok (new Protein (to_uppercase up text)))).
Proof.
  intros up tbl text. split; intros Hc.
  - apply (translate_nucleic up tbl (new Dna text)); [discriminate | exact Hc].
  - apply (translate_nucleic up tbl (new Rna text)); [discriminate | exact Hc].
Qed.

(** C3: [back_transcription] upper-cases an Rna text and replaces U by T but
    keeps the Rna biotype; on Dna and Protein it fails with a message naming
    the biotype. *)
Theorem back_transcription_spec : forall up text,
  back_transcription up (new Rna text)
  = Ok (new Rna (replace (N_of_ascii "U") (str "T") (to_uppercase up text))) /\
  (exists m, back_transcription up (new Dna text) = Err m /\ contains m (display Dna)) /\
  (exists m, back_transcription up (new Protein text) = Err m /\ contains m (display Protein)).
Proof.
  intros up text. split; [reflexivity|].
  split; eexists; (split; [reflexivity|]);
    exists (msg_cannot ++ msg_back ++ msg_transcribe ++ msg_one_piece), msg_sequence;
    reflexivity.
Qed.

(** C4: adding two sequences succeeds exactly when their biotypes agree and
    concatenates their texts; otherwise it panics with a message naming both
    biotypes. Adding text always succeeds and keeps the left biotype. *)
Theorem add_spec :
  (forall a b,
     match add a b with
     | Done r => biotype a = biotype b /\ r = new (biotype a) (seq a ++ seq b)
     | Panic m => biotype a <> biotype b
                  /\ contains m (display (biotype a)) /\ contains m (display (biotype b))
     end /\
     add_text a (seq b) = new (biotype a) (seq a ++ seq b)) /\
  add (new Dna (str "ATG")) (new Dna (str "CCT")) = Done (new Dna (str "ATGCCT")) /\
  len (new Dna (str "ATGCCT")) = 6.
Proof.
  split; [|split; reflexivity].
  intros [bta ta] [btb tb]. split; [|reflexivity].
  unfold add; simpl.
  destruct (BioType_eqb bta btb) eqn:E.
  - destruct bta, btb; try discriminate E; split; reflexivity.
  - split; [intros ->; destruct btb; discriminate E|]. split.
    + exists msg_type_err, (msg_add_to ++ display btb). reflexivity.
    + exists (msg_type_err ++ display bta ++ msg_add_to), [].
      rewrite app_nil_r, <- !app_assoc. reflexivity.
Qed.

(** C6: [reverse_complementary] is [complementary] followed by reversing the
    text, with the same biotype, and propagates its error unchanged. *)
Theorem reverse_complementary_spec : forall up s,
  match complementary up s with
  | Ok c => reverse_complementary up s = Ok (new (biotype c) (rev (seq c)))
            /\ biotype c = biotype s
  | Err e => reverse_complementary up s = Err e
  end.
Proof.
  intros up s. unfold reverse_complementary.
  destruct (complementary up s) as [c|e] eqn:Hc; [|reflexivity].
  split; [reflexivity|]. exact (complementary_biotype up s c Hc).
Qed.

(** C9: two sequences are equal exactly when their texts are, whatever their
    biotypes. *)
Theorem eq_iff_text : forall a b, eq a b = true <-> seq a = seq b.
Proof. intros a b. unfold eq. apply rstring_eqb_eq. Qed.

Lemma complementary_nucleic : forall up bt text, bt <> Protein ->
  complementary up (new bt text)
  = match complement_loop (pairing bt) (str "Invalid " ++ display bt ++ str " base: ") []
                          (to_uppercase up text) with
    | Ok c => Ok (new bt c)
    | Err e => Err e
    end.
Proof. intros up [] text H; [reflexivity | reflexivity | congruence]. Qed.

Lemma complement_loop_map : forall tbl inv f s acc,
  (forall x, In x s -> hashmap_get N.eqb tbl x = Some (f x)) ->
  complement_loop tbl inv acc s = Ok (acc ++ map f s).
Proof.
  intros tbl inv f s. induction s as [|x s IH]; intros acc H; simpl.
  - rewrite app_nil_r. reflexivity.
  - rewrite H by (left; reflexivity). rewrite IH by (intros; apply H; right; assumption).
    rewrite <- app_assoc. reflexivity.
Qed.

Lemma complement_loop_ok : forall tbl inv s acc r,
  complement_loop tbl inv acc s = Ok r ->
  forall x, In x s -> hashmap_get N.eqb tbl x <> None.
Proof.
  intros tbl inv s. induction s as [|y s IH]; intros acc r H x Hx; simpl in *; [contradiction|].
  destruct (hashmap_get N.eqb tbl y) as [z|] eqn:Hy; [|discriminate].
  destruct Hx as [<- | Hx]; [congruence|]. eapply IH; eauto.
Qed.

Lemma complement_loop_err : forall tbl inv s acc m,
  complement_loop tbl inv acc s = Err m ->
  exists pre c post, s = pre ++ c :: post
    /\ (forall x, In x pre -> hashmap_get N.eqb tbl x <> None)
    /\ hashmap_get N.eqb tbl c = None /\ m = inv ++ [c].
Proof.
  intros tbl inv s. induction s as [|y s IH]; intros acc m H; simpl in H; [discriminate|].
  destruct (hashmap_get N.eqb tbl y) as [z|] eqn:Hy.
  - destruct (IH _ _ H) as (pre & c & post & -> & Hpre & Hc & Hm).
    exists (y :: pre), c, post. repeat split; auto.
    intros x [<- | Hx]; [congruence | auto].
  - injection H as <-. exists [], y, s. repeat split; auto.
Qed.

Lemma hashmap_get_in : forall (tbl : list (rchar * rchar)) k v,
  hashmap_get N.eqb tbl k = Some v -> In (k, v) tbl.
Proof.
  intros tbl k v. induction tbl as [|[k' v'] tbl IH]; simpl; [discriminate|].
  destruct (hashmap_get N.eqb tbl k) as [w|]; [intros H; right; apply IH; exact H|].
  destruct (N.eqb_spec k' k) as [->|]; [|discriminate]. intros H; injection H as ->. auto.
Qed.

Lemma pairing_alphabet : forall bt x, bt <> Protein -> In x (alphabet bt) ->
  hashmap_get N.eqb (pairing bt) x = Some (pair_base bt x)
  /\ In (pair_base bt x) (alphabet bt) /\ pair_base bt (pair_base bt x) = x.
Proof.
  intros [] x H Hx; [| |congruence]; simpl in Hx;
    repeat destruct Hx as [<- | Hx]; try contradiction; vm_compute; intuition.
Qed.

Lemma pairing_defined : forall bt x, bt <> Protein ->
  hashmap_get N.eqb (pairing bt) x <> None <-> In x (alphabet bt).
Proof.
  intros bt x Hbt. split.
  - destruct (hashmap_get N.eqb (pairing bt) x) as [v|] eqn:E; [intros _|congruence].
    apply hashmap_get_in in E.
    destruct bt; [| |congruence]; vm_compute in E;
      repeat destruct E as [E|E]; try contradiction; injection E as <- <-; simpl; tauto.
  - intros Hx. destruct (pairing_alphabet bt x Hbt Hx) as [-> _]. discriminate.
Qed.

(** C5: on a Dna or Rna receiver whose text is over the upper-case alphabet
    of its biotype, [complementary] applied twice gives back the receiver
    (given that upper-casing leaves those four letters unchanged). *)
Theorem complementary_involutive : forall up bt text,
  bt <> Protein ->
  (forall c, In c (alphabet bt) -> up c = [c]) ->
  (forall c, In c text -> In c (alphabet bt)) ->
  exists c, complementary up (new bt text) = Ok c
            /\ complementary up c = Ok (new bt text).
Proof.
  intros up bt text Hbt Hup Htext.
  assert (Hfix : forall s, (forall c, In c s -> In c (alphabet bt)) -> to_uppercase up s = s)
    by (intros s Hs; apply to_uppercase_fixed; auto).
  assert (Hmap : forall s acc inv, (forall c, In c s -> In c (alphabet bt)) ->
            complement_loop (pairing bt) inv acc s = Ok (acc ++ map (pair_base bt) s))
    by (intros s acc inv Hs; apply complement_loop_map;
        intros x Hx; apply (pairing_alphabet bt x Hbt (Hs x Hx))).
  exists (new bt (map (pair_base bt) text)).
  assert (Hc : forall c, In c (map (pair_base bt) text) -> In c (alphabet bt)).
  { intros c Hc. apply in_map_iff in Hc as (x & <- & Hx).
    apply (pairing_alphabet bt x Hbt (Htext x Hx)). }
  split.
  - rewrite complementary_nucleic by exact Hbt. rewrite Hfix, Hmap by exact Htext. reflexivity.
  - unfold new at 1. rewrite complementary_nucleic by exact Hbt.
    rewrite Hfix, Hmap by exact Hc. simpl. rewrite map_map.
    rewrite map_ext_in with (g := fun x => x) by
      (intros x Hx; apply (pairing_alphabet bt x Hbt (Htext x Hx))).
    rewrite map_id. reflexivity.
Qed.

(** C7: on a Dna or Rna receiver, [complementary] fails exactly when the
    upper-cased text has a char outside the biotype's alphabet, and the
    message names the first such char and the biotype; on a Protein receiver
    it fails with a message naming PROTEIN. *)
Theorem complementary_errors : forall up bt text,
  match bt with
  | Protein => exists m, complementary up (new bt text) = Err m /\ contains m (display Protein)
  | _ =>
      match complementary up (new bt text) with
      | Ok _ => forall c, In c (to_uppercase up text) -> In c (alphabet bt)
      | Err m => exists pre c post,
          to_uppercase up text = pre ++ c :: post
          /\ (forall x, In x pre -> In x (alphabet bt)) /\ ~ In c (alphabet bt)
          /\ m = str "Invalid " ++ display bt ++ str " base: " ++ [c]
      end
  end.
Proof.
  intros up bt text.
  assert (Hnuc : bt <> Protein ->
    match complementary up (new bt text) with
    | Ok _ => forall c, In c (to_uppercase up text) -> In c (alphabet bt)
    | Err m => exists pre c post,
        to_uppercase up text = pre ++ c :: post
        /\ (forall x, In x pre -> In x (alphabet bt)) /\ ~ In c (alphabet bt)
        /\ m = str "Invalid " ++ display bt ++ str " base: " ++ [c]
    end).
  { intros Hbt. rewrite complementary_nucleic by exact Hbt.
    destruct (complement_loop _ _ [] (to_uppercase up text)) as [r|m] eqn:E.
    - intros c Hc. apply (pairing_defined bt c Hbt). eapply complement_loop_ok; eauto.
    - destruct (complement_loop_err _ _ _ _ _ E) as (pre & c & post & Hs & Hpre & Hc & ->).
      exists pre, c, post. split; [exact Hs|]. split; [|split].
      + intros x Hx. apply (pairing_defined bt x Hbt). auto.
      + rewrite <- (pairing_defined bt c Hbt). congruence.
      + rewrite <- !app_assoc. reflexivity. }
  destruct bt; try (apply Hnuc; discriminate).
  eexists. split; [reflexivity|].
  exists (msg_cannot ++ msg_revcomp ++ msg_one_piece ++ str " "), (str " " ++ msg_sequence).
  reflexivity.
Qed.

Lemma transcribe_AGCT : forall text,
  (forall c, In c text -> In c (str "AGCT")) ->
  let t := replace (N_of_ascii "T") (str "U") text in
  str_len t = str_len text /\ List.length t = List.length text
  /\ forall c, In c t -> In c (str "AGCU").
Proof.
  intros text H t. subst t. change (str "U") with [85%N]. rewrite replace_single.
  induction text as [|x text IH]; simpl.
  - repeat split; intros c [].
  - destruct IH as (IH1 & IH2 & IH3); [intros; apply H; right; assumption|].
    destruct (in_AGCT_cases x (H x (or_introl eq_refl))) as [-> | [-> | [-> | ->]]];
      simpl in *; rewrite ?IH1, ?IH2; (split; [reflexivity|]); (split; [reflexivity|]);
      intros c [<- | Hc]; simpl; auto.
Qed.

(** C8: [transcribe] turns a Dna receiver into an Rna sequence whose text is
    the upper-cased text with every T replaced by U; on a text over A, G, C, T
    the result has the same length and is over A, G, C, U; on Rna and Protein
    it fails with a message naming the biotype. *)
Theorem transcribe_spec : forall up text,
  transcribe up (new Dna text)
  = Ok (new Rna (replace (N_of_ascii "T") (str "U") (to_uppercase up text))) /\
  (exists m, transcribe up (new Rna text) = Err m /\ contains m (display Rna)) /\
  (exists m, transcribe up (new Protein text) = Err m /\ contains m (display Protein)) /\
  ((forall c, In c (str "AGCT") -> up c = [c]) ->
   (forall c, In c text -> In c (str "AGCT")) ->
   exists t, transcribe up (new Dna text) = Ok (new Rna t)
             /\ len (new Rna t) = len (new Dna text) /\ List.length t = List.length text
             /\ forall c, In c t -> In c (str "AGCU")).
Proof.
  intros up text. split; [reflexivity|].
  split; [|split].
  - eexists. split; [reflexivity|].
    exists (msg_cannot ++ msg_transcribe ++ msg_one_piece), msg_sequence. reflexivity.
  - eexists. split; [reflexivity|].
    exists (msg_cannot ++ msg_transcribe ++ msg_one_piece), msg_sequence. reflexivity.
  - intros Hup Htext.
    exists (replace (N_of_ascii "T") (str "U") text). split.
    { unfold transcribe. cbn [biotype seq new]. rewrite to_uppercase_fixed by auto.
      reflexivity. }
    exact (transcribe_AGCT text Htext).
Qed.

Lemma len_utf8_pos : forall c, 1 <= len_utf8 c.
Proof.
  intros c. unfold len_utf8.
  destruct (c <? 0x80)%N, (c <? 0x800)%N, (c <? 0x10000)%N; lia.
Qed.

Lemma change_fold : forall index ch l acc,
  fold_left (fun replaced (ic : nat * rchar) =>
               let (i, c) := ic in
               if Nat.eqb i index then replaced ++ [ch] else replaced ++ [c]) l acc
  = acc ++ map (fun '(i, c) => if Nat.eqb i index then ch else c) l.
Proof.
  intros index ch l. induction l as [|[i c] l IH]; intros acc; simpl.
  - rewrite app_nil_r. reflexivity.
  - rewrite IH. destruct (Nat.eqb i index); rewrite <- app_assoc; reflexivity.
Qed.

Lemma char_indices_from_ge : forall s i j,
  In j (map fst (char_indices_from i s)) -> i <= j.
Proof.
  induction s as [|c s IH]; intros i j H; simpl in H; [contradiction|].
  destruct H as [<- | H]; [lia|]. apply IH in H. pose proof (len_utf8_pos c). lia.
Qed.

Lemma change_map_absent : forall index ch s i,
  ~ In index (map fst (char_indices_from i s)) ->
  map (fun '(i, c) => if Nat.eqb i index then ch else c) (char_indices_from i s) = s.
Proof.
  intros index ch. induction s as [|c s IH]; intros i H; simpl in *; [reflexivity|].
  destruct (Nat.eqb_spec i index) as [->|]; [exfalso; auto|].
  rewrite IH by auto. reflexivity.
Qed.

Lemma change_map_at : forall index ch s i k,
  nth_error (map fst (char_indices_from i s)) k = Some index ->
  map (fun '(i, c) => if Nat.eqb i index then ch else c) (char_indices_from i s)
  = firstn k s ++ ch :: skipn (S k) s.
Proof.
  intros index ch. induction s as [|c s IH]; intros i k H; simpl in *.
  - destruct k; discriminate.
  - pose proof (len_utf8_pos c). destruct k as [|k]; simpl in H.
    + injection H as ->. rewrite Nat.eqb_refl. simpl.
      rewrite change_map_absent; [reflexivity|].
      intros Hin. apply char_indices_from_ge in Hin. lia.
    + assert (Hge : i + len_utf8 c <= index)
        by (apply char_indices_from_ge with (s := s); eapply nth_error_In; eexact H).
      destruct (Nat.eqb_spec i index) as [<-|]; [lia|].
      simpl. rewrite (IH _ _ H). reflexivity.
Qed.

(** C10: [change s index ch] never fails; if [index] is the byte offset at
    which some char of the text starts, exactly that char is replaced by [ch],
    and otherwise (also out of range) the text is unchanged. *)
Theorem change_spec : forall s index ch,
  biotype (change s index ch) = biotype s /\
  (forall k, nth_error (map fst (char_indices (seq s))) k = Some index ->
     seq (change s index ch) = firstn k (seq s) ++ ch :: skipn (S k) (seq s)) /\
  (~ In index (map fst (char_indices (seq s))) -> seq (change s index ch) = seq s).
Proof.
  intros s index ch. unfold change, char_indices. simpl. rewrite change_fold. simpl.
  split; [reflexivity|]. split.
  - intros k Hk. apply change_map_at. exact Hk.
  - intros H. apply change_map_absent. exact H.
Qed.

(** ** Witnesses at concrete inputs *)

Lemma translate_returns_nucleotide_text_witness :
  codons_presentb standard_codon_table (str "AUGUUUUAA") = true /\
  translate ascii_char_to_uppercase standard_codon_table (new Dna (str "ATGTTTTAA"))
  = Done (Ok (new Protein (str "AUGUUUUAA"))).
Proof.
  split; [vm_compute; reflexivity|].
  exact (translate_returns_nucleotide_text ascii_char_to_uppercase standard_codon_table
           Dna (str "ATGTTTTAA") ltac:(discriminate) ltac:(vm_compute; reflexivity)).
Defined.

Lemma translate_text_is_transcription_witness :
  codons_presentb standard_codon_table (str "AUGUUUUAA") = true /\
  translate ascii_char_to_uppercase standard_codon_table (new Rna (str "augUUUuaa"))
  = Done (Ok (new Protein (str "AUGUUUUAA"))).
Proof.
  split; [vm_compute; reflexivity|].
  exact (proj2 (translate_text_is_transcription ascii_char_to_uppercase standard_codon_table
                  (str "augUUUuaa")) ltac:(vm_compute; reflexivity)).
Defined.

Lemma complementary_involutive_witness :
  exists c, complementary ascii_char_to_uppercase (new Dna (str "GATTACA")) = Ok c
            /\ complementary ascii_char_to_uppercase c = Ok (new Dna (str "GATTACA")).
Proof.
  apply (complementary_involutive ascii_char_to_uppercase Dna (str "GATTACA")).
  - discriminate.
  - intros c Hc. simpl in Hc. repeat destruct Hc as [<- | Hc]; try contradiction; reflexivity.
  - intros c Hc. simpl in Hc. simpl. tauto.
Defined.

Lemma transcribe_spec_witness :
  exists t, transcribe ascii_char_to_uppercase (new Dna (str "GATTACA")) = Ok (new Rna t)
            /\ len (new Rna t) = len (new Dna (str "GATTACA"))
            /\ List.length t = List.length (str "GATTACA")
            /\ forall c, In c t -> In c (str "AGCU").
Proof.
  apply (proj2 (proj2 (proj2 (transcribe_spec ascii_char_to_uppercase (str "GATTACA"))))).
  - intros c Hc. simpl in Hc. repeat destruct Hc as [<- | Hc]; try contradiction; reflexivity.
  - intros c Hc. simpl in Hc. simpl. tauto.
Defined.

Lemma change_spec_witness :
  seq (change (new Dna multibyte_text) 4 71%N) = [65; 0x4e00; 71]%N /\
  seq (change (new Dna multibyte_text) 2 71%N) = multibyte_text.
Proof.
  split.
  - exact (proj1 (proj2 (change_spec (new Dna multibyte_text) 4 71%N)) 2
             ltac:(vm_compute; reflexivity)).
  - exact (proj2 (proj2 (change_spec (new Dna multibyte_text) 2 71%N))
             ltac:(vm_compute; intuition discriminate)).
Defined.

Example complementary_ATGX :
  complementary ascii_char_to_uppercase (new Dna (str "ATGX"))
  = Err (str "Invalid DNA base: X").
Proof. vm_compute. reflexivity. Qed.

(** A 90-char text is displayed as a line of 80 chars and a line of 10. *)
Example fmt_90 :
  fmt (new Dna (flat_map (fun _ => str "ACGTACGTAC") (List.seq 0 9)))
  = Done (fmt_header Dna ++ flat_map (fun _ => str "ACGTACGTAC") (List.seq 0 8)
          ++ [newline] ++ str "ACGTACGTAC").
Proof. vm_compute. reflexivity. Qed.

(** [from_utf8] decodes the UTF-8 bytes of chars of one to four bytes. *)
Example from_utf8_roundtrip :
  from_utf8 (as_bytes [65; 0x4e00; 0x1F600; 0x3B1]%N) = Some [65; 0x4e00; 0x1F600; 0x3B1]%N.
Proof. vm_compute. reflexivity. Qed.

(** [index] reads the one-byte char at byte 4 of [multibyte_text] and panics
    at byte 1, inside the three-byte char. *)
Example index_multibyte :
  index (new Dna multibyte_text) 4 = Done 67%N
  /\ exists m, index (new Dna multibyte_text) 1 = Panic m.
Proof. split; [vm_compute; reflexivity | eexists; vm_compute; reflexivity]. Qed.

(** [count] counts non-overlapping matches from the left, and the empty
    pattern matches at every char boundary. *)
Example count_runs :
  count (new Dna (str "ATAT")) (str "AT") = 2 /\ count (new Dna (str "AAAA")) (str "AA") = 2
  /\ count (new Dna (str "AAA")) (str "AA") = 1 /\ count (new Dna (str "AB")) [] = 3.
Proof. vm_compute. auto. Qed.

(** ** Further properties of the code *)

Lemma char_indices_from_snd : forall s k, map snd (char_indices_from k s) = s.
Proof. induction s as [|c s IH]; intros k; simpl; [reflexivity|]. rewrite IH. reflexivity. Qed.

(** Around a char starting at byte [i], no other char starts before [i + len_utf8 c],
    and the next boundary is [i + len_utf8 c]. *)
Lemma char_indices_from_around : forall s k i c,
  In (i, c) (char_indices_from k s) ->
  (forall j c', In (j, c') (char_indices_from k s) ->
     j < i \/ (j = i /\ c' = c) \/ i + len_utf8 c <= j) /\
  i + len_utf8 c <= k + str_len s /\
  In (i + len_utf8 c) (map fst (char_indices_from k s) ++ [k + str_len s]).
Proof.
  induction s as [|x s IH]; intros k i c H; simpl in H; [contradiction|].
  pose proof (len_utf8_pos x) as Hx.
  destruct H as [H | H].
  - injection H as <- <-. split; [|split].
    + intros j c' [E | E].
      * injection E as <- <-. auto.
      * right; right. apply char_indices_from_ge with (s := s).
        apply in_map_iff. exists (j, c'). auto.
    + simpl. lia.
    + simpl. right. destruct s as [|y s]; simpl.
      * left. lia.
      * left. reflexivity.
  - destruct (IH _ _ _ H) as (H1 & H2 & H3).
    assert (Hge : k + len_utf8 x <= i)
      by (apply char_indices_from_ge with (s := s); apply in_map_iff; exists (i, c); auto).
    split; [|split].
    + intros j c' [E | E]; [injection E as <- <-; left; lia | auto].
    + simpl. lia.
    + simpl. right. replace (k + (len_utf8 x + str_len s)) with (k + len_utf8 x + str_len s)
        by lia. exact H3.
Qed.

Lemma existsb_eqb_In : forall i l, existsb (Nat.eqb i) l = true <-> In i l.
Proof.
  intros i l. rewrite existsb_exists. split.
  - intros (x & Hx & E). apply Nat.eqb_eq in E. subst. exact Hx.
  - intros H. exists i. split; [exact H | apply Nat.eqb_refl].
Qed.

Lemma index_done_iff : forall sq i c,
  index sq i = Done c <-> In (i, c) (char_indices (seq sq)) /\ len_utf8 c = 1.
Proof.
  intros [bt s] i c. unfold index, is_char_boundary, slice_chars, char_indices. simpl.
  split.
  - destruct (existsb (Nat.eqb i) _) eqn:Bi; [|discriminate].
    destruct (existsb (Nat.eqb (i + 1)) _) eqn:Bi1; [|discriminate]. simpl.
    destruct (filter _ (char_indices_from 0 s)) as [|[j c'] l] eqn:F; simpl; [discriminate|].
    intros E. injection E as ->.
    assert (Hin : In (j, c) (filter (fun ic => Nat.leb i (fst ic) && Nat.ltb (fst ic) (i + 1))
                                   (char_indices_from 0 s))) by (rewrite F; left; reflexivity).
    apply filter_In in Hin as [Hin Hr]. simpl in Hr.
    apply andb_true_iff in Hr as [Hr1 Hr2]. apply Nat.leb_le in Hr1. apply Nat.ltb_lt in Hr2.
    assert (j = i) as -> by lia. split; [exact Hin|].
    destruct (char_indices_from_around s 0 i c Hin) as (H1 & H2 & _).
    apply existsb_eqb_In, in_app_iff in Bi1 as [Bi1 | [Bi1 | []]].
    + apply in_map_iff in Bi1 as ([j' c''] & Ej & Hj). simpl in Ej. subst j'.
      pose proof (len_utf8_pos c). destruct (H1 _ _ Hj) as [? | [[? _] | ?]]; lia.
    + simpl in Bi1. pose proof (len_utf8_pos c). lia.
  - intros [Hin Hlen].
    destruct (char_indices_from_around s 0 i c Hin) as (H1 & H2 & H3).
    rewrite Hlen in H3. simpl in H3.
    assert (Bi : existsb (Nat.eqb i) (map fst (char_indices_from 0 s) ++ [str_len s]) = true).
    { apply existsb_eqb_In, in_app_iff. left. apply in_map_iff. exists (i, c). auto. }
    rewrite Bi, (proj2 (existsb_eqb_In _ _) H3). simpl.
    assert (Hf : In (i, c) (filter (fun ic => Nat.leb i (fst ic) && Nat.ltb (fst ic) (i + 1))
                                   (char_indices_from 0 s))).
    { apply filter_In. split; [exact Hin|]. simpl.
      rewrite Nat.leb_refl, (proj2 (Nat.ltb_lt i (i + 1))) by lia. reflexivity. }
    destruct (filter _ (char_indices_from 0 s)) as [|[j c'] l] eqn:F; [contradiction|].
    assert (Hj : In (j, c') (filter (fun ic => Nat.leb i (fst ic) && Nat.ltb (fst ic) (i + 1))
                                   (char_indices_from 0 s))) by (rewrite F; left; reflexivity).
    apply filter_In in Hj as [Hj Hr]. simpl in Hr.
    apply andb_true_iff in Hr as [Hr1 Hr2]. apply Nat.leb_le in Hr1. apply Nat.ltb_lt in Hr2.
    destruct (H1 _ _ Hj) as [? | [[_ ->] | ?]]; [lia | reflexivity | lia].
Qed.

(** X1: [index] returns a char exactly when a one-byte (ASCII) char starts at
    that byte offset, and then returns that char; it panics on any other
    offset, including out-of-range offsets and those inside or at the start
    of a multi-byte char. *)
Theorem index_spec : forall sq i c,
  index sq i = Done c <-> In (i, c) (char_indices (seq sq)) /\ len_utf8 c = 1.
Proof. exact index_done_iff. Qed.

Lemma len_utf8_one : forall c, len_utf8 c = 1 <-> (c < 0x80)%N.
Proof.
  intros c. unfold len_utf8. destruct (N.ltb_spec c 0x80); [tauto|].
  destruct (c <? 0x800)%N, (c <? 0x10000)%N; split; intros H'; try discriminate; lia.
Qed.

Lemma char_indices_from_ascii : forall s,
  (forall x, In x s -> (x < 0x80)%N) ->
  forall k i c, In (i, c) (char_indices_from k s) <-> k <= i /\ nth_error s (i - k) = Some c.
Proof.
  induction s as [|x s IH]; intros Hs k i c; simpl.
  - split; [intros []|]. intros [_ H]. destruct (i - k); discriminate.
  - assert (Hx : len_utf8 x = 1) by (apply len_utf8_one, Hs; left; reflexivity). rewrite Hx.
    rewrite IH by (intros; apply Hs; right; assumption). split.
    + intros [E | [Hle Hn]].
      * injection E as <- <-. rewrite Nat.sub_diag. auto.
      * split; [lia|]. replace (i - k) with (S (i - (k + 1))) by lia. exact Hn.
    + intros [Hle Hn]. destruct (Nat.eq_dec i k) as [->|Hne].
      * left. rewrite Nat.sub_diag in Hn. simpl in Hn. injection Hn as ->. reflexivity.
      * right. split; [lia|]. replace (i - k) with (S (i - (k + 1))) in Hn by lia. exact Hn.
Qed.

Lemma index_ascii_done : forall sq i,
  (forall c, In c (seq sq) -> (c < 0x80)%N) -> i < List.length (seq sq) ->
  index sq i = Done (nth i (seq sq) 0%N).
Proof.
  intros sq i Hs Hi. apply index_done_iff. unfold char_indices.
  rewrite char_indices_from_ascii by exact Hs. rewrite Nat.sub_0_r.
  split; [split; [lia|]|].
  - apply nth_error_nth'. exact Hi.
  - apply len_utf8_one, Hs, nth_In, Hi.
Qed.

(** X2: on a text of ASCII chars, [index] at a byte offset below the length
    returns the char at that position, and panics at any larger offset. *)
Theorem index_ascii : forall sq i,
  (forall c, In c (seq sq) -> (c < 0x80)%N) ->
  (i < List.length (seq sq) -> index sq i = Done (nth i (seq sq) 0%N)) /\
  (List.length (seq sq) <= i -> exists m, index sq i = Panic m).
Proof.
  intros sq i Hs. split.
  - intros Hi. exact (index_ascii_done sq i Hs Hi).
  - intros Hi. destruct (index sq i) as [c|m] eqn:E; [|eauto].
    apply index_done_iff in E as [Hin _]. unfold char_indices in Hin.
    rewrite char_indices_from_ascii in Hin by exact Hs.
    destruct Hin as [_ Hn]. rewrite Nat.sub_0_r in Hn.
    unfold rchar in *. apply nth_error_None in Hi. congruence.
Qed.

Lemma char_indices_from_app1 : forall s k x,
  char_indices_from k (s ++ [x]) = char_indices_from k s ++ [(k + str_len s, x)].
Proof.
  induction s as [|y s IH]; intros k x; simpl.
  - rewrite Nat.add_0_r. reflexivity.
  - rewrite IH, Nat.add_assoc. reflexivity.
Qed.

(** X3: [push] grows the byte length by the char's UTF-8 width, and [index]
    at the old length then returns the pushed char if it is one byte long,
    and panics otherwise. *)
Theorem push_spec : forall sq ch,
  len (push sq ch) = len sq + len_utf8 ch /\
  match index (push sq ch) (len sq) with
  | Done c => c = ch /\ len_utf8 ch = 1
  | Panic _ => len_utf8 ch <> 1
  end.
Proof.
  intros [bt s] ch. unfold len, push; simpl. split.
  - induction s as [|y s IH]; simpl; [lia|]. rewrite IH. lia.
  - destruct (index _ (str_len s)) as [c|m] eqn:E.
    + apply index_done_iff in E as [Hin Hc]. simpl in Hin.
      unfold char_indices in Hin. rewrite char_indices_from_app1 in Hin.
      apply in_app_iff in Hin as [Hin | [E | []]].
      * destruct (char_indices_from_around s 0 _ c Hin) as (_ & H2 & _).
        pose proof (len_utf8_pos c). simpl in H2. lia.
      * injection E as <-. auto.
    + intros Hch. assert (Hd : index {| biotype := bt; seq := s ++ [ch] |} (str_len s) = Done ch).
      { apply index_done_iff. split; [|exact Hch]. simpl. unfold char_indices.
        rewrite char_indices_from_app1. apply in_app_iff. right. left. reflexivity. }
      congruence.
Qed.

Lemma char_indices_from_ascii_nth : forall s,
  (forall x, In x s -> (x < 0x80)%N) ->
  forall k n, nth_error (char_indices_from k s) n
              = option_map (fun c => (k + n, c)) (nth_error s n).
Proof.
  induction s as [|x s IH]; intros Hs k n; simpl; [destruct n; reflexivity|].
  assert (Hx : len_utf8 x = 1) by (apply len_utf8_one, Hs; left; reflexivity). rewrite Hx.
  destruct n as [|n]; simpl.
  - rewrite Nat.add_0_r. reflexivity.
  - rewrite IH by (intros; apply Hs; right; assumption). destruct (nth_error s n); simpl; [do 2 f_equal; lia | reflexivity].
Qed.

(** X4: [change] never changes the number of chars; on an ASCII text, after
    changing the char at an in-range offset to an ASCII char, [index] at that
    offset returns the new char. *)
Theorem change_then_index : forall sq i ch,
  List.length (seq (change sq i ch)) = List.length (seq sq) /\
  ((forall c, In c (seq sq) -> (c < 0x80)%N) -> (ch < 0x80)%N -> i < List.length (seq sq) ->
   index (change sq i ch) i = Done ch).
Proof.
  intros [bt s] i ch. unfold change, char_indices. simpl. rewrite change_fold. simpl.
  split.
  - rewrite length_map. rewrite <- (char_indices_from_snd s 0) at 2. rewrite length_map.
    reflexivity.
  - intros Hs Hch Hi.
    assert (Hpos : nth_error (map fst (char_indices_from 0 s)) i = Some i).
    { rewrite nth_error_map, char_indices_from_ascii_nth by exact Hs.
      unfold rstring, rchar in *.
      destruct (nth_error s i) eqn:E; [reflexivity|].
      apply nth_error_None in E. lia. }
    rewrite (change_map_at i ch s 0 i Hpos).
    assert (Hl : List.length (firstn i s) = i) by (rewrite length_firstn; lia).
    assert (Hs' : forall c, In c (firstn i s ++ ch :: skipn (S i) s) -> (c < 0x80)%N).
    { intros c Hc. apply in_app_iff in Hc as [Hc | [<- | Hc]]; auto.
      - apply Hs. rewrite <- (firstn_skipn i s). apply in_app_iff. auto.
      - apply Hs. rewrite <- (firstn_skipn (S i) s). apply in_app_iff. auto. }
    rewrite (index_ascii_done {| biotype := bt; seq := firstn i s ++ ch :: skipn (S i) s |} i Hs')
      by (simpl; rewrite length_app; simpl; lia).
    simpl. rewrite app_nth2 by lia. rewrite Hl, Nat.sub_diag. reflexivity.
Qed.

Lemma is_prefix_app : forall p s, is_prefix p s = true -> s = p ++ skipn (List.length p) s.
Proof.
  induction p as [|x p IH]; intros s H; [reflexivity|].
  destruct s as [|y s]; simpl in H; [discriminate|].
  apply andb_true_iff in H as [Hxy H]. apply N.eqb_eq in Hxy. subst y.
  simpl. rewrite <- IH by exact H. reflexivity.
Qed.

Lemma is_prefix_self : forall p r, is_prefix p (p ++ r) = true.
Proof. induction p as [|x p IH]; intros r; simpl; [reflexivity|]. rewrite N.eqb_refl, IH. reflexivity. Qed.

(** X5: counting a one-char pattern counts the occurrences of that char. *)
Theorem count_single_char : forall sq c,
  count sq [c] = count_occ N.eq_dec (seq sq) c.
Proof.
  intros [bt s] c. unfold count. simpl.
  induction s as [|x s IH]; simpl; [reflexivity|].
  destruct (N.eqb_spec c x) as [<-|Hne]; simpl.
  - destruct (N.eq_dec c c) as [_|]; [|congruence]. rewrite IH. reflexivity.
  - destruct (N.eq_dec x c) as [E|_]; [congruence|]. exact IH.
Qed.

Lemma count_matches_bound : forall fuel pat s, pat <> [] ->
  count_matches fuel pat s * List.length pat <= List.length s.
Proof.
  induction fuel as [|fuel IH]; intros pat s Hp; simpl; [lia|].
  destruct s as [|x s']; [simpl; lia|].
  destruct (is_prefix pat (x :: s')) eqn:E.
  - apply is_prefix_app in E. simpl.
    specialize (IH pat (skipn (List.length pat) (x :: s')) Hp).
    pose proof (f_equal (@List.length N) E) as Hl. rewrite length_app in Hl.
    unfold rstring, rchar in *. simpl in Hl |- *. lia.
  - specialize (IH pat s' Hp). simpl. lia.
Qed.

(** X6: the matches [count] finds do not overlap: for a non-empty pattern,
    the count times the pattern's length is at most the number of chars. *)
Theorem count_non_overlapping : forall sq pat, pat <> [] ->
  count sq pat * List.length pat <= List.length (seq sq).
Proof.
  intros sq [|x p] Hp; [congruence|]. unfold count.
  apply count_matches_bound. discriminate.
Qed.

Lemma count_matches_repeat : forall pat n fuel, pat <> [] -> n <= fuel ->
  count_matches fuel pat (List.concat (List.repeat pat n)) = n.
Proof.
  intros pat n. induction n as [|n IH]; intros fuel Hp Hn; simpl.
  - destruct fuel; reflexivity.
  - destruct fuel as [|fuel]; [lia|]. destruct pat as [|x p]; [congruence|]. simpl.
    rewrite N.eqb_refl, is_prefix_self. simpl.
    rewrite skipn_app, skipn_all, Nat.sub_diag. simpl.
    rewrite IH by (discriminate || lia). reflexivity.
Qed.

(** X7: in [n] copies of a non-empty pattern, [count] finds exactly [n]
    matches (for instance 2 for "AA" in "AAAA", not 3). *)
Theorem count_repeat : forall bt pat n, pat <> [] ->
  count (new bt (List.concat (List.repeat pat n))) pat = n.
Proof.
  intros bt [|x p] n Hp; [congruence|]. unfold count. simpl.
  apply count_matches_repeat; [discriminate|].
  clear Hp. induction n as [|n IH]; simpl; [lia|].
  rewrite length_app. simpl. lia.
Qed.

Lemma encode_utf8_ascii : forall c, (c < 0x80)%N -> encode_utf8 c = [c].
Proof.
  intros c Hc. unfold encode_utf8. rewrite (proj2 (len_utf8_one c) Hc). reflexivity.
Qed.

Lemma as_bytes_ascii : forall s, (forall c, In c s -> (c < 0x80)%N) -> as_bytes s = s.
Proof.
  induction s as [|c s IH]; intros Hs; simpl; [reflexivity|].
  rewrite encode_utf8_ascii by (apply Hs; left; reflexivity).
  rewrite IH by (intros; apply Hs; right; assumption). reflexivity.
Qed.

Lemma from_utf8_ascii_app : forall p v, (forall c, In c p -> (c < 0x80)%N) ->
  from_utf8 (p ++ v) = option_map (app p) (from_utf8 v).
Proof.
  induction p as [|b p IH]; intros v Hp; simpl.
  - destruct (from_utf8 v); reflexivity.
  - assert (Hb : (b < 0x80)%N) by (apply Hp; left; reflexivity).
    unfold utf8_char_width at 1. rewrite (proj2 (N.ltb_lt b 0x80) Hb).
    rewrite IH by (intros; apply Hp; right; assumption).
    destruct (from_utf8 v); reflexivity.
Qed.

Lemma chunks_fuel_props : forall fuel n (l : list N), 1 <= n -> List.length l <= fuel ->
  let cs := chunks_fuel fuel n l in
  List.concat cs = l /\
  (forall c, In c cs -> 1 <= List.length c <= n) /\
  (forall k c, nth_error cs k = Some c -> S k < List.length cs -> List.length c = n).
Proof.
  induction fuel as [|fuel IH]; intros n l Hn Hl cs; subst cs.
  - destruct l; [|simpl in Hl; lia]. simpl. repeat split; intros; try contradiction.
    destruct k; discriminate.
  - destruct l as [|x l'].
    + simpl. repeat split; intros; try contradiction. destruct k; discriminate.
    + cbn [chunks_fuel].
      assert (Hs : List.length (skipn n (x :: l')) <= fuel)
        by (rewrite length_skipn; lia).
      destruct (IH n (skipn n (x :: l')) Hn Hs) as (H1 & H2 & H3).
      split; [|split].
      * simpl. rewrite H1. apply firstn_skipn.
      * intros c [<- | Hc]; [|auto]. rewrite length_firstn. simpl. lia.
      * intros [|k] c Hk Hlt; simpl in Hk, Hlt.
        -- injection Hk as <-. rewrite length_firstn.
           destruct (skipn n (x :: l')) as [|y r] eqn:E.
           ++ destruct fuel; simpl in Hlt; lia.
           ++ assert (Hlen : n < List.length (x :: l')).
              { pose proof (f_equal (@List.length N) E) as HE.
                rewrite length_skipn in HE. cbn [List.length] in HE |- *. lia. }
              lia.
        -- apply (H3 k c Hk). lia.
Qed.

Lemma decode_chunks_ascii : forall cs,
  (forall c x, In c cs -> In x c -> (x < 0x80)%N) -> decode_chunks cs = Done cs.
Proof.
  induction cs as [|c cs IH]; intros H; simpl; [reflexivity|].
  pose proof (from_utf8_ascii_app c [] (fun x Hx => H c x (or_introl eq_refl) Hx)) as Hc.
  rewrite app_nil_r in Hc. rewrite Hc. simpl.
  rewrite IH by (intros c' x Hc' Hx; apply (H c' x); [right; exact Hc' | exact Hx]). rewrite app_nil_r. reflexivity.
Qed.

(** X8: an ASCII text is displayed, after the header naming the biotype, as
    lines that concatenate back to the text, each of 1 to 80 chars and all
    but the last exactly 80 chars. *)
Theorem fmt_ascii_lines : forall sq,
  (forall c, In c (seq sq) -> (c < 0x80)%N) ->
  exists lines, fmt sq = Done (fmt_header (biotype sq) ++ join_nl lines)
    /\ List.concat lines = seq sq
    /\ (forall l, In l lines -> 1 <= List.length l <= 80)
    /\ (forall k l, nth_error lines k = Some l -> S k < List.length lines ->
                    List.length l = 80).
Proof.
  intros [bt s] Hs. simpl in *. unfold fmt, chunks. simpl.
  rewrite as_bytes_ascii by exact Hs.
  destruct (chunks_fuel_props (List.length s) 80 s ltac:(lia) (le_n _)) as (H1 & H2 & H3).
  rewrite decode_chunks_ascii.
  - exists (chunks_fuel (List.length s) 80 s). auto.
  - intros c x Hc Hx. apply Hs. rewrite <- H1. apply in_concat. eauto.
Qed.

Lemma N_range_check : forall (f : N -> bool) (n : nat) (q : N),
  forallb (fun k => f (N.of_nat k)) (List.seq 0 n) = true -> (q < N.of_nat n)%N -> f q = true.
Proof.
  intros f n q H Hq. rewrite <- (N2Nat.id q).
  apply (proj1 (forallb_forall _ _) H). apply in_seq. lia.
Qed.

Lemma encode_lead_width : forall c, (c <= 0x10FFFF)%N ->
  exists lead rest, encode_utf8 c = lead :: rest
    /\ utf8_char_width lead = len_utf8 c /\ List.length rest = len_utf8 c - 1.
Proof.
  intros c Hc. unfold encode_utf8, len_utf8.
  destruct (N.ltb_spec c 0x80); [eexists _, []; split; [reflexivity|];
    unfold utf8_char_width; rewrite (proj2 (N.ltb_lt c 0x80)) by lia; auto|].
  destruct (N.ltb_spec c 0x800).
  - eexists _, _. split; [reflexivity|]. split; [|reflexivity].
    rewrite N.shiftr_div_pow2.
    assert (Hq1 : (2 <= c / 2 ^ 6)%N) by
      (change 2%N with (0x80 / 2 ^ 6)%N at 1; apply N.Div0.div_le_mono; lia).
    assert (Hq2 : (c / 2 ^ 6 < N.of_nat 32)%N) by (apply N.Div0.div_lt_upper_bound; lia).
    pose proof (N_range_check
      (fun q => (q <? 2)%N || Nat.eqb (utf8_char_width (N.lor (N.land q 0x1F) 0xC0)) 2)
      32 (c / 2 ^ 6) ltac:(vm_compute; reflexivity) Hq2) as Hw.
    simpl in Hw. apply orb_true_iff in Hw as [Hw | Hw].
    + apply N.ltb_lt in Hw. lia.
    + apply Nat.eqb_eq in Hw. exact Hw.
  - destruct (N.ltb_spec c 0x10000).
    + eexists _, _. split; [reflexivity|]. split; [|reflexivity].
      rewrite N.shiftr_div_pow2.
      assert (Hq : (c / 2 ^ 12 < N.of_nat 16)%N) by (apply N.Div0.div_lt_upper_bound; lia).
      pose proof (N_range_check
        (fun q => Nat.eqb (utf8_char_width (N.lor (N.land q 0x0F) 0xE0)) 3)
        16 (c / 2 ^ 12) ltac:(vm_compute; reflexivity) Hq) as Hw.
      apply Nat.eqb_eq in Hw. exact Hw.
    + eexists _, _. split; [reflexivity|]. split; [|reflexivity].
      rewrite N.shiftr_div_pow2.
      assert (Hq : (c / 2 ^ 18 < N.of_nat 5)%N) by (apply N.Div0.div_lt_upper_bound; lia).
      pose proof (N_range_check
        (fun q => Nat.eqb (utf8_char_width (N.lor (N.land q 0x07) 0xF0)) 4)
        5 (c / 2 ^ 18) ltac:(vm_compute; reflexivity) Hq) as Hw.
      apply Nat.eqb_eq in Hw. exact Hw.
Qed.

Lemma from_utf8_truncated : forall b0 r,
  2 <= utf8_char_width b0 -> List.length r < utf8_char_width b0 - 1 ->
  from_utf8 (b0 :: r) = None.
Proof.
  intros b0 r H1 H2. cbn [from_utf8].
  destruct (utf8_char_width b0) as [|[|[|[|[|w]]]]]; try lia;
    destruct r as [|b1 [|b2 [|b3 r]]]; simpl in H2; try lia; reflexivity.
Qed.

Lemma chunks_fuel_first : forall {A : Type} fuel n (l : list A), l <> [] -> 1 <= fuel ->
  exists rest, chunks_fuel fuel n l = firstn n l :: rest.
Proof.
  intros A [|fuel] n [|x l] H1 H2; try lia; try congruence. simpl. eauto.
Qed.

(** X9: when the 80-byte boundary of the display falls inside a multibyte
    char (here after an ASCII prefix shorter than 80 bytes), [fmt] panics
    on the [from_utf8(chunk).unwrap()] of the first chunk. *)
Theorem fmt_panics_on_split_char : forall bt p c r,
  (forall x, In x p -> (x < 0x80)%N) -> (c <= 0x10FFFF)%N ->
  List.length p < 80 < List.length p + len_utf8 c ->
  exists m, fmt (new bt (p ++ c :: r)) = Panic m.
Proof.
  intros bt p c r Hp Hc [Hlt Hgt].
  destruct (encode_lead_width c Hc) as (lead & rest & He & Hw & Hr).
  unfold fmt, new, chunks. cbn [seq].
  assert (Hb : as_bytes (p ++ c :: r) = p ++ lead :: (rest ++ as_bytes r)).
  { unfold as_bytes. rewrite flat_map_app. fold (as_bytes p).
    rewrite as_bytes_ascii by exact Hp. simpl. rewrite He. reflexivity. }
  rewrite Hb.
  destruct (chunks_fuel_first (List.length (p ++ lead :: rest ++ as_bytes r)) 80
              (p ++ lead :: rest ++ as_bytes r)) as [cs Hcs].
  - destruct p; discriminate.
  - rewrite length_app. simpl. lia.
  - rewrite Hcs. cbn [decode_chunks].
    rewrite firstn_app, (firstn_all2 p) by lia.
    replace (80 - List.length p) with (S (79 - List.length p)) by lia.
    rewrite firstn_cons, firstn_app.
    replace (79 - List.length p - List.length rest) with 0 by lia.
    rewrite firstn_O, app_nil_r.
    rewrite from_utf8_ascii_app by exact Hp.
    rewrite from_utf8_truncated; [eexists; reflexivity | lia |].
    rewrite length_firstn. lia.
Qed.

Lemma chunks3_len : forall l c, In c (chunks3 l) -> List.length c <= 3.
Proof.
  intros l. remember (List.length l) as n eqn:En.
  revert l En. induction n as [n IH] using lt_wf_ind. intros l En c Hc.
  destruct l as [|a [|b [|d r]]]; simpl in Hc.
  - contradiction.
  - destruct Hc as [<- | []]. simpl. lia.
  - destruct Hc as [<- | []]. simpl. lia.
  - destruct Hc as [<- | Hc]; [simpl; lia|].
    apply (IH (List.length r)) with (l := r); [simpl in En; lia | reflexivity | exact Hc].
Qed.

Lemma translate_loop_outcome : forall tbl chunks acc,
  (forall c, In c chunks -> List.length c <= 3) ->
  match translate_loop tbl chunks acc with
  | Done _ => ~ missing_codon_reached tbl chunks
  | Panic m => m = msg_no_entry /\ missing_codon_reached tbl chunks
  end.
Proof.
  intros tbl chunks. induction chunks as [|ch chs IH]; intros acc Hl; simpl.
  - intros (pre & cd & post & E & _). destruct pre; discriminate.
  - assert (Hch : List.length ch <= 3) by (apply Hl; left; reflexivity).
    destruct (Nat.ltb_spec (List.length ch) 3).
    + intros ([|x pre] & cd & post & E & H3 & _ & Hpre); simpl in E;
        injection E as E1 E2; subst.
      * lia.
      * destruct (Hpre x (or_introl eq_refl)) as [Hx3 _]. lia.
    + destruct (hashmap_get rstring_eqb tbl ch) as [cd|] eqn:Hg.
      * destruct (rstring_eqb cd (str "*")) eqn:Hs.
        -- intros ([|x pre] & c' & post & E & H3 & Hn & Hpre); simpl in E;
             injection E as E1 E2; subst.
           ++ congruence.
           ++ destruct (Hpre x (or_introl eq_refl)) as [_ (a & Ha & Hne)].
              rewrite Hg in Ha. injection Ha as <-. apply Hne, rstring_eqb_eq, Hs.
        -- specialize (IH (acc ++ cd) (fun c H => Hl c (or_intror H))).
           destruct (translate_loop tbl chs (acc ++ cd)) as [p|m].
           ++ intros ([|x pre] & c' & post & E & H3 & Hn & Hpre); simpl in E;
                injection E as E1 E2; subst.
              ** congruence.
              ** apply IH. exists pre, c', post.
                 split; [reflexivity|]. split; [exact H3|]. split; [exact Hn|].
                 intros y Hy. apply Hpre. right. exact Hy.
           ++ destruct IH as [-> (pre & c' & post & E & H3 & Hn & Hpre)].
              split; [reflexivity|].
              exists (ch :: pre), c', post. subst chs.
              split; [reflexivity|]. split; [exact H3|]. split; [exact Hn|].
              intros y [<- | Hy]; [|auto]. split; [lia|]. exists cd. split; [assumption|].
              intros E. subst cd. rewrite (proj2 (rstring_eqb_eq _ _) eq_refl) in Hs.
              discriminate.
      * split; [reflexivity|]. exists [], ch, chs.
        split; [reflexivity|]. split; [lia|]. split; [exact Hg|]. intros _ [].
Qed.

(** X10: [translate] never fails in another way than these: on a Protein
    receiver it returns an error naming PROTEIN; on a Dna or Rna receiver it
    panics with "no entry found for key" exactly when, reading the triplets of
    the nucleotide text in order, one missing from the codon table comes
    before any stop codon, and otherwise returns [Ok] of that text labelled
    Protein (triplets after a stop codon are never looked up). *)
Theorem translate_outcome : forall up tbl bt text,
  let nuc := match bt with
             | Dna => replace (N_of_ascii "T") (str "U") (to_uppercase up text)
             | _ => to_uppercase up text
             end in
  match bt with
  | Protein => exists m, translate up tbl (new bt text) = Done (Err m)
                         /\ contains m (display Protein)
  | _ => (translate up tbl (new bt text) = Done (Ok (new Protein nuc))
          /\ ~ missing_codon_reached tbl (chunks3 nuc))
         \/ (translate up tbl (new bt text) = Panic msg_no_entry
             /\ missing_codon_reached tbl (chunks3 nuc))
  end.
Proof.
  intros up tbl bt text nuc. subst nuc.
  destruct bt;
    [| | eexists; split; [reflexivity|];
         exists (msg_cannot ++ msg_translate ++ msg_one_piece), msg_sequence; reflexivity];
    unfold translate, unwrap, transcribe; simpl;
    match goal with |- context [translate_loop ?t (chunks3 ?x) []] =>
      pose proof (translate_loop_outcome t (chunks3 x) [] (chunks3_len x)) as H;
      destruct (translate_loop t (chunks3 x) []) end;
    [left | right | left | right];
    (split; [try (destruct H as [-> _]); reflexivity | tauto]).
Qed.

Lemma complementary_alphabet : forall up bt s,
  bt <> Protein -> (forall c, In c (alphabet bt) -> up c = [c]) ->
  (forall c, In c s -> In c (alphabet bt)) ->
  complementary up (new bt s) = Ok (new bt (map (pair_base bt) s)).
Proof.
  intros up bt s Hbt Hup Hs. rewrite complementary_nucleic by exact Hbt.
  rewrite to_uppercase_fixed by auto.
  rewrite (complement_loop_map _ _ (pair_base bt)) by
    (intros x Hx; apply (pairing_alphabet bt x Hbt (Hs x Hx))).
  reflexivity.
Qed.

Lemma pair_base_alphabet : forall bt s, bt <> Protein ->
  (forall c, In c s -> In c (alphabet bt)) ->
  (forall c, In c (map (pair_base bt) s) -> In c (alphabet bt))
  /\ map (pair_base bt) (map (pair_base bt) s) = s.
Proof.
  intros bt s Hbt Hs. split.
  - intros c Hc. apply in_map_iff in Hc as (x & <- & Hx).
    apply (pairing_alphabet bt x Hbt (Hs x Hx)).
  - rewrite map_map, map_ext_in with (g := fun x => x), map_id; [reflexivity|].
    intros x Hx. apply (pairing_alphabet bt x Hbt (Hs x Hx)).
Qed.

(** X11: on a Dna or Rna text over its upper-case alphabet,
    [reverse_complementary] returns the reversed base-paired text with the
    same biotype, and applying it to that result gives back the original. *)
Theorem reverse_complementary_involutive : forall up bt text,
  bt <> Protein ->
  (forall c, In c (alphabet bt) -> up c = [c]) ->
  (forall c, In c text -> In c (alphabet bt)) ->
  reverse_complementary up (new bt text) = Ok (new bt (rev (map (pair_base bt) text)))
  /\ reverse_complementary up (new bt (rev (map (pair_base bt) text))) = Ok (new bt text).
Proof.
  intros up bt text Hbt Hup Htext.
  destruct (pair_base_alphabet bt text Hbt Htext) as [Hin Hinv].
  unfold reverse_complementary. split.
  - rewrite complementary_alphabet by assumption. reflexivity.
  - rewrite complementary_alphabet; [| assumption | assumption |].
    + cbn [biotype seq new]. rewrite map_rev, Hinv, rev_involutive. reflexivity.
    + intros c Hc. apply Hin. apply in_rev. exact Hc.
Qed.

(** X12: a successful [complementary] keeps the biotype of a Dna or Rna
    receiver and returns the base-paired upper-cased text, char by char
    (same number of chars), all of it in the biotype's alphabet. *)
Theorem complementary_ok_shape : forall up s r,
  complementary up s = Ok r ->
  biotype s <> Protein /\ biotype r = biotype s
  /\ seq r = map (pair_base (biotype s)) (to_uppercase up (seq s))
  /\ (forall c, In c (seq r) -> In c (alphabet (biotype s))).
Proof.
  intros up [bt text] r H. cbn [biotype seq].
  assert (Hbt : bt <> Protein) by (intros ->; discriminate H).
  pose proof H as H'. change (mkSequence bt text) with (new bt text) in H'.
  rewrite complementary_nucleic in H' by exact Hbt.
  destruct (complement_loop _ _ [] (to_uppercase up text)) as [c|e] eqn:E; [|discriminate].
  injection H' as <-.
  assert (Hal : forall x, In x (to_uppercase up text) -> In x (alphabet bt))
    by (intros x Hx; apply (pairing_defined bt x Hbt); eapply complement_loop_ok; eauto).
  rewrite (complement_loop_map _ _ (pair_base bt)) in E by
    (intros x Hx; apply (pairing_alphabet bt x Hbt (Hal x Hx))).
  injection E as <-. cbn [biotype seq new].
  split; [exact Hbt|]. split; [reflexivity|]. split; [reflexivity|].
  apply (pair_base_alphabet bt _ Hbt Hal).
Qed.

Lemma replace_absent : forall from to s, ~ In from to -> ~ In from (replace from to s).
Proof.
  intros from to s Hto Hin. unfold replace in Hin.
  apply in_flat_map in Hin as (c & _ & Hc).
  destruct (N.eqb c from) eqn:E; [exact (Hto Hc)|].
  destruct Hc as [Hc | []]. subst c. rewrite N.eqb_refl in E. discriminate E.
Qed.

(** X13: a successful [transcribe] comes from a Dna receiver and gives an Rna
    sequence with no T in its text; a successful [back_transcription] comes
    from an Rna receiver and gives a sequence (still Rna) with no U. *)
Theorem transcription_removes_base : forall up s r,
  (transcribe up s = Ok r ->
   biotype s = Dna /\ biotype r = Rna /\ ~ In (N_of_ascii "T") (seq r)) /\
  (back_transcription up s = Ok r ->
   biotype s = Rna /\ biotype r = Rna /\ ~ In (N_of_ascii "U") (seq r)).
Proof.
  intros up [bt text] r. unfold transcribe, back_transcription. cbn [biotype seq].
  split; destruct bt; intros H; try discriminate H; injection H as <-;
    cbn [biotype seq]; (split; [reflexivity|]); (split; [reflexivity|]);
    apply replace_absent; intros [E | []]; discriminate E.
Qed.

(** X14: on a Dna text over A, G, C, T (with upper-casing leaving A, G, C, T
    and U unchanged), [back_transcription] after [transcribe] restores the
    text, labelled Rna. *)
Theorem transcribe_back_transcription : forall up text,
  (forall c, In c (str "AGCTU") -> up c = [c]) ->
  (forall c, In c text -> In c (str "AGCT")) ->
  exists r, transcribe up (new Dna text) = Ok r
            /\ back_transcription up r = Ok (new Rna text).
Proof.
  intros up text Hup Htext.
  assert (Hfix1 : to_uppercase up text = text).
  { apply to_uppercase_fixed. intros c Hc.
    destruct (in_AGCT_cases c (Htext c Hc)) as [-> | [-> | [-> | ->]]];
      apply Hup; simpl; tauto. }
  eexists. split.
  - unfold transcribe. cbn [biotype seq new]. rewrite Hfix1. reflexivity.
  - unfold back_transcription. cbn [biotype seq].
    change (str "U") with [85%N]. change (str "T") with [84%N].
    rewrite !replace_single, to_uppercase_fixed.
    + rewrite map_map, map_ext_in with (g := fun x => x), map_id; [reflexivity|].
      intros x Hx. destruct (in_AGCT_cases x (Htext x Hx)) as [-> | [-> | [-> | ->]]];
        reflexivity.
    + intros c Hc. apply in_map_iff in Hc as (x & <- & Hx).
      destruct (in_AGCT_cases x (Htext x Hx)) as [-> | [-> | [-> | ->]]];
        apply Hup; simpl; tauto.
Qed.

(** X15: a back-transcribed sequence keeps the Rna biotype, so transcribing
    it again always fails with a message naming RNA. *)
Theorem back_transcription_then_transcribe : forall up s r,
  back_transcription up s = Ok r ->
  exists m, transcribe up r = Err m /\ contains m (display Rna).
Proof.
  intros up [[] text] r H; try discriminate H. injection H as <-.
  eexists. split; [reflexivity|].
  exists (msg_cannot ++ msg_transcribe ++ msg_one_piece), msg_sequence. reflexivity.
Qed.

(** X16: adding three sequences gives the same outcome in either grouping:
    both groupings succeed with the same sequence (exactly when all three
    biotypes agree) or both panic. *)
Theorem add_grouping : forall a b c,
  let l := match add a b with Done ab => add ab c | Panic m => Panic m end in
  let r := match add b c with Done bc => add a bc | Panic m => Panic m end in
  (biotype a = biotype b /\ biotype b = biotype c /\
   l = Done (new (biotype a) (seq a ++ seq b ++ seq c)) /\ l = r)
  \/ (biotype a <> biotype b \/ biotype b <> biotype c)
     /\ (exists m, l = Panic m) /\ (exists m, r = Panic m).
Proof.
  intros [ba ta] [bb tb] [bc tc] l r. subst l r. unfold add. cbn [biotype seq].
  destruct ba, bb, bc; cbn;
    first [ left; rewrite <- !app_assoc; repeat split; reflexivity
          | right; split; [first [left; discriminate | right; discriminate] |];
            split; eexists; reflexivity ].
Qed.

(** ** Witnesses of the further properties *)

Ltac ascii_text := let c := fresh "c" in let Hc := fresh "Hc" in
  intros c Hc; simpl in Hc; repeat destruct Hc as [<- | Hc]; try contradiction; reflexivity.

Lemma index_ascii_witness :
  index (new Dna (str "ACGT")) 2 = Done (nth 2 (str "ACGT") 0%N)
  /\ exists m, index (new Dna (str "ACGT")) 4 = Panic m.
Proof.
  split.
  - apply (proj1 (index_ascii (new Dna (str "ACGT")) 2 ltac:(ascii_text))). simpl. lia.
  - apply (proj2 (index_ascii (new Dna (str "ACGT")) 4 ltac:(ascii_text))). simpl. lia.
Defined.

Lemma change_then_index_witness :
  index (change (new Dna (str "ACGT")) 2 84%N) 2 = Done 84%N.
Proof.
  apply (proj2 (change_then_index (new Dna (str "ACGT")) 2 84%N)).
  - ascii_text.
  - reflexivity.
  - simpl. lia.
Defined.

Lemma count_non_overlapping_witness :
  str "AA" <> [] /\ count (new Dna (str "AAAAA")) (str "AA") * 2 <= 5.
Proof.
  split; [discriminate|].
  apply (count_non_overlapping (new Dna (str "AAAAA")) (str "AA")). discriminate.
Defined.

Lemma count_repeat_witness :
  str "GATC" <> [] /\
  count (new Dna (List.concat (List.repeat (str "GATC") 4))) (str "GATC") = 4.
Proof.
  split; [discriminate|].
  apply (count_repeat Dna (str "GATC") 4). discriminate.
Defined.

Lemma fmt_ascii_lines_witness :
  exists lines, fmt (new Rna (str "ACGU")) = Done (fmt_header Rna ++ join_nl lines)
    /\ List.concat lines = str "ACGU"
    /\ (forall l, In l lines -> 1 <= List.length l <= 80)
    /\ (forall k l, nth_error lines k = Some l -> S k < List.length lines ->
                    List.length l = 80).
Proof. apply (fmt_ascii_lines (new Rna (str "ACGU"))). ascii_text. Defined.

Lemma fmt_panics_on_split_char_witness :
  exists m, fmt (new Dna (List.repeat 65%N 79 ++ [0x4e00%N])) = Panic m.
Proof.
  apply (fmt_panics_on_split_char Dna (List.repeat 65%N 79) 0x4e00%N []).
  - intros x Hx. apply repeat_spec in Hx. subst x. reflexivity.
  - discriminate.
  - rewrite repeat_length. change (len_utf8 0x4e00%N) with 3. lia.
Defined.

Lemma reverse_complementary_involutive_witness :
  reverse_complementary ascii_char_to_uppercase (new Dna (str "AAGC"))
  = Ok (new Dna (rev (map (pair_base Dna) (str "AAGC"))))
  /\ reverse_complementary ascii_char_to_uppercase
       (new Dna (rev (map (pair_base Dna) (str "AAGC")))) = Ok (new Dna (str "AAGC")).
Proof.
  apply (reverse_complementary_involutive ascii_char_to_uppercase Dna (str "AAGC")).
  - discriminate.
  - ascii_text.
  - intros c Hc. simpl in Hc. simpl. tauto.
Defined.

Lemma complementary_ok_shape_witness :
  complementary ascii_char_to_uppercase (new Rna (str "aug")) = Ok (new Rna (str "UAC"))
  /\ seq (new Rna (str "UAC"))
     = map (pair_base Rna) (to_uppercase ascii_char_to_uppercase (str "aug")).
Proof.
  assert (H : complementary ascii_char_to_uppercase (new Rna (str "aug"))
              = Ok (new Rna (str "UAC"))) by (vm_compute; reflexivity).
  split; [exact H|].
  exact (proj1 (proj2 (proj2 (complementary_ok_shape _ _ _ H)))).
Defined.

Lemma transcription_removes_base_witness :
  transcribe ascii_char_to_uppercase (new Dna (str "tat")) = Ok (new Rna (str "UAU"))
  /\ ~ In (N_of_ascii "T") (str "UAU").
Proof.
  assert (H : transcribe ascii_char_to_uppercase (new Dna (str "tat"))
              = Ok (new Rna (str "UAU"))) by (vm_compute; reflexivity).
  split; [exact H|].
  exact (proj2 (proj2 (proj1 (transcription_removes_base _ _ _) H))).
Defined.

Lemma transcribe_back_transcription_witness :
  exists r, transcribe ascii_char_to_uppercase (new Dna (str "GATTACA")) = Ok r
            /\ back_transcription ascii_char_to_uppercase r = Ok (new Rna (str "GATTACA")).
Proof.
  apply (transcribe_back_transcription ascii_char_to_uppercase (str "GATTACA")).
  - ascii_text.
  - intros c Hc. simpl in Hc. simpl. tauto.
Defined.

Lemma back_transcription_then_transcribe_witness :
  back_transcription ascii_char_to_uppercase (new Rna (str "AUG")) = Ok (new Rna (str "ATG"))
  /\ exists m, transcribe ascii_char_to_uppercase (new Rna (str "ATG")) = Err m
               /\ contains m (display Rna).
Proof.
  assert (H : back_transcription ascii_char_to_uppercase (new Rna (str "AUG"))
              = Ok (new Rna (str "ATG"))) by (vm_compute; reflexivity).
  split; [exact H|].
  exact (back_transcription_then_transcribe _ _ _ H).
Defined.
